(** * Neon Snake: a shallow embedding of [src/app/page.tsx]

    The React component keeps its state in [useState] cells and mirrors some
    of them in [useRef] cells that are synchronised by [useEffect] hooks.  We
    model the whole component as one record [Game] and each event handler as
    a function on it.  A handler's result is the state after React has
    committed the queued updates and run the effects whose dependencies
    changed (the refs of lines 176-186 and the scheduler effect of lines
    162-174). *)

From Stdlib Require Import ZArith List Bool Lia.
Import ListNotations.
Open Scope Z_scope.

(** ** Data model (lines 5-22) *)

Record Coordinate := mkCoord { x : Z; y : Z }.

Inductive Direction := UP | DOWN | LEFT | RIGHT.

Inductive GameState := idle | running | paused | over.

Definition BOARD_SIZE : Z := 20.
Definition TICK_BASE : Z := 160.
Definition SPEED_STEP : Z := 6.

Definition INITIAL_SNAKE : list Coordinate :=
  [mkCoord 9 10; mkCoord 8 10; mkCoord 7 10].

Definition coord_eqb (a b : Coordinate) : bool :=
  (x a =? x b) && (y a =? y b).

Definition Coordinate_eq_dec (a b : Coordinate) : {a = b} + {a <> b}.
Proof. decide equality; apply Z.eq_dec. Defined.

Definition Direction_eqb (a b : Direction) : bool :=
  match a, b with
  | UP, UP | DOWN, DOWN | LEFT, LEFT | RIGHT, RIGHT => true
  | _, _ => false
  end.

Definition GameState_eqb (a b : GameState) : bool :=
  match a, b with
  | idle, idle | running, running | paused, paused | over, over => true
  | _, _ => false
  end.

(** [prevSnake.some((segment) => segment.x === c.x && segment.y === c.y)] *)
Definition some_segment (c : Coordinate) (s : list Coordinate) : bool :=
  existsb (fun segment => coord_eqb segment c) s.

(** ** [randomFoodPosition] (lines 24-33)

    The random source is the sequence [rand] of draws
    [(Math.floor(Math.random() * BOARD_SIZE), Math.floor(Math.random() * BOARD_SIZE))];
    [rand i] is the pair drawn on the [i]-th pass of the do-while loop.  The
    set [taken] holds the keys [`${x}-${y}`]; on integers this key is
    injective, so membership of a key is membership of the coordinate.
    The loop is unbounded; [fuel] bounds the number of passes we unfold and
    [None] means that no draw within [fuel] passes left the loop. *)

Fixpoint food_loop (fuel : nat) (taken : list Coordinate)
    (rand : nat -> Coordinate) (i : nat) : option Coordinate :=
  match fuel with
  | O => None
  | S fuel' =>
      let c := rand i in
      if some_segment c taken then food_loop fuel' taken rand (S i)
      else Some c
  end.

Definition randomFoodPosition (fuel : nat) (rand : nat -> Coordinate)
    (forbidden : list Coordinate) : option Coordinate :=
  food_loop fuel forbidden rand 0.

(** A draw of [Math.floor(Math.random() * BOARD_SIZE)] lies in [[0, BOARD_SIZE)]. *)
Definition in_board (c : Coordinate) : Prop :=
  0 <= x c < BOARD_SIZE /\ 0 <= y c < BOARD_SIZE.

(** ** [getNextHead] and [isOppositeDirection] (lines 35-55) *)

Definition getNextHead (head : Coordinate) (direction : Direction) : Coordinate :=
  match direction with
  | UP => mkCoord (x head) (y head - 1)
  | DOWN => mkCoord (x head) (y head + 1)
  | LEFT => mkCoord (x head - 1) (y head)
  | RIGHT => mkCoord (x head + 1) (y head)
  end.

Definition isOppositeDirection (current next : Direction) : bool :=
  match current, next with
  | UP, DOWN | DOWN, UP | LEFT, RIGHT | RIGHT, LEFT => true
  | _, _ => false
  end.

(** ** [tickRate] (line 95) and [updateHighScore] (lines 64-74) *)

Definition tickRate (speedLevel : Z) : Z :=
  Z.max 60 (TICK_BASE - speedLevel * SPEED_STEP).

Definition updateHighScore (score prev : Z) : Z :=
  if score >? prev then score else prev.

(** ** Component state (lines 80-93)

    [loop] records whether [loopRef.current] holds a live interval.
    [scoreRef] is always equal to [score] (it is written together with it in
    [resetGame] and in the eating branch, and re-synchronised by the effect of
    line 184), so it is not a separate field. *)

Record Game := mkGame {
  snake : list Coordinate;
  food : Coordinate;
  direction : Direction;
  queuedDirection : Direction;
  directionRef : Direction;
  queuedRef : Direction;
  gameState : GameState;
  score : Z;
  highScore : Z;
  speedLevel : Z;
  loop : bool
}.

(** ** Effects run after a commit (lines 162-186, 282-284)

    [prev] is the state of the previous commit and [next] the state produced
    by the handler.  An effect runs only when one of its dependencies
    changed:
    - [directionRef.current = direction] when [direction] changed;
    - [queuedRef.current = queuedDirection] when [queuedDirection] changed;
    - [updateHighScore(score)] when [score] changed;
    - the scheduler effect depends on [gameState] and on [startLoop], whose
      identity changes with [food.x], [food.y] and [tickRate]; when it runs,
      its cleanup calls [stopLoop] and it then calls [startLoop] if
      [gameState === "running"] and [stopLoop] otherwise. *)

Definition runEffects (prev next : Game) : Game :=
  let dRef :=
    if Direction_eqb (direction prev) (direction next) then directionRef next
    else direction next in
  let qRef :=
    if Direction_eqb (queuedDirection prev) (queuedDirection next) then queuedRef next
    else queuedDirection next in
  let hs :=
    if score prev =? score next then highScore next
    else updateHighScore (score next) (highScore next) in
  let schedulerDepsChanged :=
    negb (GameState_eqb (gameState prev) (gameState next))
    || negb (coord_eqb (food prev) (food next))
    || negb (tickRate (speedLevel prev) =? tickRate (speedLevel next)) in
  let lp :=
    if schedulerDepsChanged then GameState_eqb (gameState next) running
    else loop next in
  mkGame (snake next) (food next) (direction next) (queuedDirection next)
    dRef qRef (gameState next) (score next) hs (speedLevel next) lp.

(** Field updates used by the handlers. *)

Definition setGameState (s : GameState) (g : Game) : Game :=
  mkGame (snake g) (food g) (direction g) (queuedDirection g) (directionRef g)
    (queuedRef g) s (score g) (highScore g) (speedLevel g) (loop g).

Definition setTurn (d : Direction) (g : Game) : Game :=
  mkGame (snake g) (food g) d d (directionRef g)
    (queuedRef g) (gameState g) (score g) (highScore g) (speedLevel g) (loop g).

(** ** Initial render (lines 80-87) and [resetGame] (lines 97-109)

    [stored] is the high score read from [localStorage] (or [0]); the mount
    effects call [stopLoop] (state [idle]) and [updateHighScore(0)]. *)

Definition initialGame (food0 : Coordinate) (stored : Z) : Game :=
  mkGame INITIAL_SNAKE food0 RIGHT RIGHT RIGHT RIGHT idle 0
    (updateHighScore 0 stored) 0 false.

Definition resetGame (newFood : Coordinate) (g : Game) : Game :=
  mkGame INITIAL_SNAKE newFood RIGHT RIGHT RIGHT RIGHT running 0
    (highScore g) 0 (loop g).

(** ** [togglePause] (lines 237-251) and the Space branch of [handleKeyDown]
    (lines 203-213).  [None] is the case where [randomFoodPosition] inside
    [resetGame] never returns. *)

Definition togglePause (fuel : nat) (rand : nat -> Coordinate) (g : Game)
    : option Game :=
  match gameState g with
  | running => Some (runEffects g (setGameState paused g))
  | paused => Some (runEffects g (setGameState running g))
  | idle =>
      match randomFoodPosition fuel rand INITIAL_SNAKE with
      | Some newFood => Some (runEffects g (resetGame newFood g))
      | None => None
      end
  | over =>
      match randomFoodPosition fuel rand INITIAL_SNAKE with
      | Some newFood => Some (runEffects g (resetGame newFood g))
      | None => None
      end
  end.

Definition handleSpace (fuel : nat) (rand : nat -> Coordinate) (g : Game)
    : option Game :=
  match gameState g with
  | running => Some (runEffects g (setGameState paused g))
  | paused => Some (runEffects g (setGameState running g))
  | idle | over =>
      match randomFoodPosition fuel rand INITIAL_SNAKE with
      | Some newFood => Some (runEffects g (resetGame newFood g))
      | None => None
      end
  end.

(** ** Turn requests: the arrow/WASD branch of [handleKeyDown]
    (lines 218-230) and [changeDirection] (lines 253-265).  Both read
    [directionRef.current] and, on acceptance, call [setDirection(next)] as
    well as setting the queued direction. *)

Definition handleKeyTurn (nextDirection : Direction) (g : Game) : Game :=
  let currentQueued := queuedDirection g in
  let currentDirection := directionRef g in
  if isOppositeDirection currentDirection nextDirection then runEffects g g
  else if Direction_eqb currentQueued nextDirection then runEffects g g
  else runEffects g (setTurn nextDirection g).

Definition changeDirection (next : Direction) (g : Game) : Game :=
  let currentQueued := queuedDirection g in
  let currentDirection := directionRef g in
  if isOppositeDirection currentDirection next
     || Direction_eqb currentQueued next
  then runEffects g g
  else runEffects g (setTurn next g).

(** ** One firing of the interval set by [startLoop] (lines 120-158)

    [directionRef.current = queuedRef.current] commits the queued turn, then
    the [setSnake] updater runs on the committed snake.  [TickOutcome] names
    the branch the updater takes.  [None] is the case where the updater
    throws ([prevSnake[0]] is [undefined] on an empty snake) or where
    [randomFoodPosition] never returns. *)

Inductive TickOutcome := Continued | Ate | Collided.

Definition outOfBounds (c : Coordinate) : bool :=
  (x c <? 0) || (y c <? 0) || (x c >=? BOARD_SIZE) || (y c >=? BOARD_SIZE).

Definition tick (fuel : nat) (rand : nat -> Coordinate) (g : Game)
    : option (Game * TickOutcome) :=
  let currentDirection := queuedRef g in
  match snake g with
  | [] => None
  | head :: _ =>
      let prevSnake := snake g in
      let nextHead := getNextHead head currentDirection in
      if outOfBounds nextHead || some_segment nextHead prevSnake then
        (* stopLoop(); setGameState("over"); updateHighScore(scoreRef.current);
           return prevSnake *)
        Some (runEffects g
                (mkGame prevSnake (food g) (direction g) (queuedDirection g)
                   currentDirection (queuedRef g) over (score g)
                   (updateHighScore (score g) (highScore g)) (speedLevel g) false),
              Collided)
      else
        let hasEaten := coord_eqb nextHead (food g) in
        let newSnake := nextHead :: prevSnake in
        if hasEaten then
          match randomFoodPosition fuel rand newSnake with
          | Some newFood =>
              Some (runEffects g
                      (mkGame newSnake newFood (direction g) (queuedDirection g)
                         currentDirection (queuedRef g) (gameState g)
                         (score g + 10) (highScore g)
                         (Z.min (speedLevel g + 1) 12) (loop g)),
                    Ate)
          | None => None
          end
        else
          (* newSnake.pop() *)
          Some (runEffects g
                  (mkGame (removelast newSnake) (food g) (direction g)
                     (queuedDirection g) currentDirection (queuedRef g)
                     (gameState g) (score g) (highScore g) (speedLevel g) (loop g)),
                Continued)
  end.

(** ** Reachable states

    The component starts in [initialGame]; afterwards any handler may run
    ([togglePause] from the button, the Space key, a turn key, a direction
    button), and the interval fires only while it is live. *)

Inductive reachable : Game -> Prop :=
  | reach_init : forall fuel rand food0 stored,
      randomFoodPosition fuel rand INITIAL_SNAKE = Some food0 ->
      reachable (initialGame food0 stored)
  | reach_toggle : forall g g' fuel rand,
      reachable g -> togglePause fuel rand g = Some g' -> reachable g'
  | reach_space : forall g g' fuel rand,
      reachable g -> handleSpace fuel rand g = Some g' -> reachable g'
  | reach_key : forall g d,
      reachable g -> reachable (handleKeyTurn d g)
  | reach_button : forall g d,
      reachable g -> reachable (changeDirection d g)
  | reach_tick : forall g g' o fuel rand,
      reachable g -> loop g = true -> tick fuel rand g = Some (g', o) ->
      reachable g'.

(** ** Scripted sessions

    A deterministic driver over the handlers, used to exhibit concrete
    reachable states.  [ATick] fails when no interval is live. *)

Inductive Action :=
  | AToggle (fuel : nat) (rand : nat -> Coordinate)
  | ASpace (fuel : nat) (rand : nat -> Coordinate)
  | AKey (d : Direction)
  | AButton (d : Direction)
  | ATick (fuel : nat) (rand : nat -> Coordinate).

Definition step (a : Action) (g : Game) : option Game :=
  match a with
  | AToggle fuel rand => togglePause fuel rand g
  | ASpace fuel rand => handleSpace fuel rand g
  | AKey d => Some (handleKeyTurn d g)
  | AButton d => Some (changeDirection d g)
  | ATick fuel rand =>
      if loop g then
        match tick fuel rand g with
        | Some (g', _) => Some g'
        | None => None
        end
      else None
  end.

Fixpoint run (acts : list Action) (g : Game) : option Game :=
  match acts with
  | [] => Some g
  | a :: acts' =>
      match step a g with
      | Some g' => run acts' g'
      | None => None
      end
  end.

(** The draw sequence that always yields [c]. *)
Definition always (c : Coordinate) : nat -> Coordinate := fun _ => c.

(** Every cell of the 20x20 board. *)
Definition board_range : list Z := map Z.of_nat (seq 0 (Z.to_nat BOARD_SIZE)).

Definition full_board : list Coordinate :=
  flat_map (fun i => map (fun j => mkCoord i j) board_range) board_range.

(** The session "start, one plain tick": the snake has moved right once. *)
Definition start_food : Coordinate := mkCoord 15 15.

Definition g_boot : Game := initialGame start_food 0.

Definition started_and_moved : list Action :=
  [AToggle 1 (always start_food); ATick 1 (always start_food)].

(** A session that eats twelve times: ten times along row 10, then, after a
    turn downwards, twice along column 19. *)
Definition twelve_meals : list Action :=
  [AToggle 1 (always (mkCoord 10 10))]
  ++ map (fun i => ATick 1 (always (mkCoord (10 + Z.of_nat i) 10))) (seq 1 9)
  ++ [ATick 1 (always (mkCoord 19 11)); AButton DOWN;
      ATick 1 (always (mkCoord 19 12)); ATick 1 (always (mkCoord 0 0))].

(** Concrete states used by the examples below. *)

Definition session_state (acts : list Action) : Game :=
  match run acts g_boot with Some g => g | None => g_boot end.

(** Start, eat the food at (10,10), pause. *)
Definition paused_after_meal : list Action :=
  [AToggle 1 (always (mkCoord 10 10)); ATick 1 (always start_food);
   AToggle 1 (always start_food)].

(** A running game whose head is on the left wall, heading left. *)
Definition wall_game : Game :=
  mkGame [mkCoord 0 5; mkCoord 1 5; mkCoord 2 5] (mkCoord 10 10)
    LEFT LEFT LEFT LEFT running 0 0 0 true.

(** A running game whose four segments form a square; heading down takes
    the head onto the tail cell. *)
Definition square_game : Game :=
  mkGame [mkCoord 1 1; mkCoord 2 1; mkCoord 2 2; mkCoord 1 2] (mkCoord 10 10)
    DOWN DOWN DOWN DOWN running 0 0 0 true.

(** The starting snake with the food right in front of it. *)
Definition meal_game : Game :=
  mkGame INITIAL_SNAKE (mkCoord 10 10) RIGHT RIGHT RIGHT RIGHT running 0 0 0 true.

(** A draw sequence that scans the whole board, row by row. *)
Definition scan_board : nat -> Coordinate :=
  fun i => nth (i mod 400) full_board (mkCoord 0 0).

(** Two cells are neighbours on the grid (one step of [getNextHead]). *)
Definition adjacent (a b : Coordinate) : bool :=
  Z.abs (x a - x b) + Z.abs (y a - y b) =? 1.

(** Each segment of a snake is a neighbour of the next one. *)
Fixpoint contiguous (s : list Coordinate) : bool :=
  match s with
  | a :: ((b :: _) as t) => adjacent a b && contiguous t
  | _ => true
  end.

(** Invariants of reachable states: the scheduler and the heading cells;
    score, high score, length and speed level; the snake's geometry. *)

Definition control_inv (g : Game) : Prop :=
  loop g = GameState_eqb (gameState g) running
  /\ directionRef g = direction g /\ queuedRef g = direction g
  /\ queuedDirection g = direction g.

Definition score_inv (g : Game) : Prop :=
  0 <= score g <= highScore g
  /\ score g = 10 * (Z.of_nat (length (snake g)) - 3)
  /\ speedLevel g = Z.min (Z.of_nat (length (snake g)) - 3) 12.

Definition geom_inv (g : Game) : Prop :=
  Forall in_board (snake g) /\ contiguous (snake g) = true.

(** * Basic facts about the embedding *)

Lemma coord_eqb_true (a b : Coordinate) : coord_eqb a b = true <-> a = b.
Proof.
  destruct a as [ax ay], b as [bx by_]; unfold coord_eqb; simpl.
  rewrite andb_true_iff, !Z.eqb_eq.
  split; [intros [-> ->]; reflexivity | intros H; inversion H; auto].
Qed.

Lemma coord_eqb_refl (a : Coordinate) : coord_eqb a a = true.
Proof. apply coord_eqb_true; reflexivity. Qed.

Lemma some_segment_In (c : Coordinate) (s : list Coordinate) :
  some_segment c s = true <-> In c s.
Proof.
  unfold some_segment; rewrite existsb_exists; split.
  - intros [seg [Hin Heq]]; apply coord_eqb_true in Heq; subst; exact Hin.
  - intros Hin; exists c; split; [exact Hin | apply coord_eqb_refl].
Qed.

Lemma some_segment_false (c : Coordinate) (s : list Coordinate) :
  some_segment c s = false <-> ~ In c s.
Proof.
  rewrite <- some_segment_In; destruct (some_segment c s); split; congruence.
Qed.

Lemma GameState_eqb_refl (s : GameState) : GameState_eqb s s = true.
Proof. destruct s; reflexivity. Qed.

Lemma Direction_eqb_true (a b : Direction) : Direction_eqb a b = true <-> a = b.
Proof. destruct a, b; simpl; split; congruence. Qed.

(** ** The food loop *)

Lemma food_loop_sound fuel taken rand i c :
  food_loop fuel taken rand i = Some c ->
  ~ In c taken /\ exists j, (i <= j)%nat /\ c = rand j.
Proof.
  revert i; induction fuel as [|fuel IH]; intros i H; simpl in H.
  - discriminate.
  - destruct (some_segment (rand i) taken) eqn:E.
    + destruct (IH (S i) H) as [Hn [j [Hj ->]]].
      split; [exact Hn | exists j; split; [lia | reflexivity]].
    + inversion H; subst; split.
      * apply some_segment_false; exact E.
      * exists i; split; [lia | reflexivity].
Qed.

Lemma food_loop_all_taken fuel taken rand i :
  (forall j, In (rand j) taken) -> food_loop fuel taken rand i = None.
Proof.
  intros Hall; revert i; induction fuel as [|fuel IH]; intros i; simpl.
  - reflexivity.
  - replace (some_segment (rand i) taken) with true
      by (symmetry; apply some_segment_In, Hall).
    apply IH.
Qed.

(** The loop leaves at the first free draw, if there is one within [fuel]. *)
Lemma food_loop_first_free fuel taken rand i k :
  (k < fuel)%nat -> ~ In (rand (i + k)%nat) taken ->
  exists c, food_loop fuel taken rand i = Some c.
Proof.
  revert i k; induction fuel as [|fuel IH]; intros i k Hk Hfree; [lia|].
  simpl; destruct (some_segment (rand i) taken) eqn:E.
  - destruct k as [|k].
    + rewrite Nat.add_0_r in Hfree; apply some_segment_In in E; contradiction.
    + apply (IH (S i) k); [lia|]. replace (S i + k)%nat with (i + S k)%nat by lia.
      exact Hfree.
  - eexists; reflexivity.
Qed.

Lemma in_board_full_board (c : Coordinate) : in_board c -> In c full_board.
Proof.
  destruct c as [cx cy]; unfold in_board, BOARD_SIZE; cbn [x y]; intros [Hx Hy].
  unfold full_board; apply in_flat_map; exists cx; split.
  - unfold board_range; apply in_map_iff; exists (Z.to_nat cx); split; [apply Z2Nat.id; lia|].
    apply in_seq; change (Z.to_nat BOARD_SIZE) with 20%nat; lia.
  - apply in_map_iff; exists cy; split; [reflexivity|].
    unfold board_range; apply in_map_iff; exists (Z.to_nat cy); split; [apply Z2Nat.id; lia|].
    apply in_seq; change (Z.to_nat BOARD_SIZE) with 20%nat; lia.
Qed.

(** ** Sessions give reachable states *)

Lemma step_reachable a g g' :
  reachable g -> step a g = Some g' -> reachable g'.
Proof.
  intros Hr Hs; destruct a; simpl in Hs.
  - eapply reach_toggle; eauto.
  - eapply reach_space; eauto.
  - inversion Hs; subst; apply reach_key; exact Hr.
  - inversion Hs; subst; apply reach_button; exact Hr.
  - destruct (loop g) eqn:L; [|discriminate].
    destruct (tick fuel rand g) as [[g1 o]|] eqn:T; [|discriminate].
    inversion Hs; subst; eapply reach_tick; eauto.
Qed.

Lemma run_reachable acts g g' :
  reachable g -> run acts g = Some g' -> reachable g'.
Proof.
  revert g; induction acts as [|a acts IH]; intros g Hr H; simpl in H.
  - inversion H; subst; exact Hr.
  - destruct (step a g) as [g1|] eqn:E; [|discriminate].
    apply (IH g1); [eapply step_reachable; eauto | exact H].
Qed.

Lemma g_boot_reachable : reachable g_boot.
Proof. apply (reach_init 1 (always start_food)); reflexivity. Qed.

Lemma Direction_eqb_refl (d : Direction) : Direction_eqb d d = true.
Proof. destruct d; reflexivity. Qed.

(** ** What each handler does to the simulation fields *)

Lemma in_removelast (c : Coordinate) (l : list Coordinate) :
  In c (removelast l) -> In c l.
Proof.
  destruct (list_eq_dec Coordinate_eq_dec l []) as [->|Hne]; [simpl; tauto|].
  intros H; rewrite (app_removelast_last c Hne); apply in_or_app; left; exact H.
Qed.

Lemma NoDup_removelast (l : list Coordinate) : NoDup l -> NoDup (removelast l).
Proof.
  destruct (list_eq_dec Coordinate_eq_dec l []) as [->|Hne]; [simpl; auto|].
  intros H; rewrite (app_removelast_last (mkCoord 0 0) Hne) in H.
  eapply NoDup_app_remove_r; exact H.
Qed.

Lemma removelast_cons_length (a : Coordinate) (l : list Coordinate) :
  length (removelast (a :: l)) = length l.
Proof.
  revert a; induction l as [|b l IH]; intros a; [reflexivity|].
  change (removelast (a :: b :: l)) with (a :: removelast (b :: l)).
  change (S (length (removelast (b :: l))) = S (length l)).
  rewrite IH; reflexivity.
Qed.

Lemma last_In (d : Coordinate) (l : list Coordinate) : l <> [] -> In (last l d) l.
Proof.
  induction l as [|a l IH]; [congruence|]; intros _.
  destruct l as [|b l]; [left; reflexivity|].
  right; apply IH; discriminate.
Qed.

Lemma tick_cases fuel rand g g' o :
  tick fuel rand g = Some (g', o) ->
  exists head rest,
    snake g = head :: rest /\
    let nextHead := getNextHead head (queuedRef g) in
    ((outOfBounds nextHead || some_segment nextHead (snake g)) = true
     /\ o = Collided /\ snake g' = snake g /\ food g' = food g
     /\ score g' = score g /\ speedLevel g' = speedLevel g)
    \/ ((outOfBounds nextHead || some_segment nextHead (snake g)) = false
     /\ nextHead = food g /\ o = Ate /\ snake g' = nextHead :: snake g
     /\ randomFoodPosition fuel rand (nextHead :: snake g) = Some (food g')
     /\ score g' = score g + 10 /\ speedLevel g' = Z.min (speedLevel g + 1) 12)
    \/ ((outOfBounds nextHead || some_segment nextHead (snake g)) = false
     /\ nextHead <> food g /\ o = Continued
     /\ snake g' = removelast (nextHead :: snake g) /\ food g' = food g
     /\ score g' = score g /\ speedLevel g' = speedLevel g).
Proof.
  unfold tick; destruct (snake g) as [|head rest] eqn:S; [discriminate|].
  intros H; exists head, rest; split; [reflexivity|]; cbv zeta.
  destruct (outOfBounds _ || some_segment _ _) eqn:C.
  - inversion H; subst; left; repeat split; auto.
  - destruct (coord_eqb (getNextHead head (queuedRef g)) (food g)) eqn:E.
    + apply coord_eqb_true in E.
      destruct (randomFoodPosition _ _ _) as [f|] eqn:F; [|discriminate].
      inversion H; subst; right; left; repeat split; auto.
    + assert (E' : getNextHead head (queuedRef g) <> food g)
        by (intros Heq; rewrite Heq, coord_eqb_refl in E; discriminate).
      inversion H; subst; right; right; repeat split; auto.
Qed.

(** [togglePause] and the Space key either leave the simulation fields alone
    (pause, resume) or reset them with a freshly placed food. *)
Lemma togglePause_cases fuel rand g g' :
  togglePause fuel rand g = Some g' \/ handleSpace fuel rand g = Some g' ->
  (snake g' = snake g /\ food g' = food g /\ score g' = score g
   /\ speedLevel g' = speedLevel g)
  \/ (snake g' = INITIAL_SNAKE /\ score g' = 0 /\ speedLevel g' = 0
      /\ randomFoodPosition fuel rand INITIAL_SNAKE = Some (food g')).
Proof.
  unfold togglePause, handleSpace; intros H.
  destruct (gameState g);
    try (destruct (randomFoodPosition fuel rand INITIAL_SNAKE) as [f|] eqn:F);
    destruct H as [H|H]; inversion H; subst; simpl; auto.
Qed.

Lemma turn_fields (d : Direction) (g g' : Game) :
  g' = handleKeyTurn d g \/ g' = changeDirection d g ->
  snake g' = snake g /\ food g' = food g /\ score g' = score g
  /\ speedLevel g' = speedLevel g /\ gameState g' = gameState g.
Proof.
  unfold handleKeyTurn, changeDirection; intros [->| ->];
    repeat match goal with |- context [if ?b then _ else _] => destruct b end;
    simpl; auto.
Qed.

(** ** Invariants of reachable states *)

Lemma reachable_speedLevel g : reachable g -> 0 <= speedLevel g <= 12.
Proof.
  induction 1 as [fuel rand f st _ | g g' fuel rand _ IH H | g g' fuel rand _ IH H
                 | g d _ IH | g d _ IH | g g' o fuel rand _ IH _ H].
  - simpl; lia.
  - destruct (togglePause_cases fuel rand g g' (or_introl H)) as [[_ [_ [_ ->]]]|[_ [_ [-> _]]]];
      lia.
  - destruct (togglePause_cases fuel rand g g' (or_intror H)) as [[_ [_ [_ ->]]]|[_ [_ [-> _]]]];
      lia.
  - destruct (turn_fields d g _ (or_introl eq_refl)) as [_ [_ [_ [-> _]]]]; exact IH.
  - destruct (turn_fields d g _ (or_intror eq_refl)) as [_ [_ [_ [-> _]]]]; exact IH.
  - destruct (tick_cases _ _ _ _ _ H) as [head [rest [_ C]]]; cbv zeta in C.
    destruct C as [[Hc [Ho [Hsn [Hf [Hsc Hsp]]]]]|[[Hc [Hnh [Ho [Hsn [Hf [Hsc Hsp]]]]]]|[Hc [Hnh [Ho [Hsn [Hf [Hsc Hsp]]]]]]]].
    + rewrite Hsp; exact IH.
    + rewrite Hsp; lia.
    + rewrite Hsp; exact IH.
Qed.

Lemma reachable_food_not_in_snake g : reachable g -> ~ In (food g) (snake g).
Proof.
  induction 1 as [fuel rand f st Hf | g g' fuel rand _ IH H | g g' fuel rand _ IH H
                 | g d _ IH | g d _ IH | g g' o fuel rand _ IH _ H].
  - exact (proj1 (food_loop_sound _ _ _ _ _ Hf)).
  - destruct (togglePause_cases fuel rand g g' (or_introl H))
      as [[-> [-> _]]|[-> [_ [_ Hf]]]]; [exact IH|].
    exact (proj1 (food_loop_sound _ _ _ _ _ Hf)).
  - destruct (togglePause_cases fuel rand g g' (or_intror H))
      as [[-> [-> _]]|[-> [_ [_ Hf]]]]; [exact IH|].
    exact (proj1 (food_loop_sound _ _ _ _ _ Hf)).
  - destruct (turn_fields d g _ (or_introl eq_refl)) as [-> [-> _]]; exact IH.
  - destruct (turn_fields d g _ (or_intror eq_refl)) as [-> [-> _]]; exact IH.
  - destruct (tick_cases _ _ _ _ _ H) as [head [rest [Hs C]]]; cbv zeta in C.
    destruct C as [[Hc [Ho [Hsn [Hf [Hsc Hsp]]]]]|[[Hc [Hnh [Ho [Hsn [Hf [Hsc Hsp]]]]]]|[Hc [Hnh [Ho [Hsn [Hf [Hsc Hsp]]]]]]]].
    + rewrite Hsn, Hf; exact IH.
    + rewrite Hsn; exact (proj1 (food_loop_sound _ _ _ _ _ Hf)).
    + rewrite Hsn, Hf; intros Hin; apply in_removelast in Hin.
      destruct Hin as [Heq|Hin]; [exact (Hnh Heq) | exact (IH Hin)].
Qed.

Lemma reachable_direction_synced g :
  reachable g -> direction g = queuedDirection g.
Proof.
  induction 1 as [fuel rand f st _ | g g' fuel rand _ IH H | g g' fuel rand _ IH H
                 | g d _ IH | g d _ IH | g g' o fuel rand _ IH _ H].
  - reflexivity.
  - unfold togglePause in H; destruct (gameState g);
      try destruct (randomFoodPosition _ _ _); inversion H; subst; simpl; auto.
  - unfold handleSpace in H; destruct (gameState g);
      try destruct (randomFoodPosition _ _ _); inversion H; subst; simpl; auto.
  - unfold handleKeyTurn;
      repeat match goal with |- context [if ?b then _ else _] => destruct b end;
      simpl; auto.
  - unfold changeDirection;
      repeat match goal with |- context [if ?b then _ else _] => destruct b end;
      simpl; auto.
  - unfold tick in H; destruct (snake g); [discriminate|].
    repeat match goal with
           | H : context [if ?b then _ else _] |- _ => destruct b
           | H : context [match ?o with Some _ => _ | None => _ end] |- _ =>
               destruct o
           end; inversion H; subst; simpl; auto.
Qed.

Lemma INITIAL_SNAKE_NoDup : NoDup INITIAL_SNAKE.
Proof.
  unfold INITIAL_SNAKE.
  repeat constructor; simpl; intros H; repeat (destruct H as [H|H]; [discriminate H|]);
    exact H.
Qed.

Lemma tick_NoDup fuel rand g g' o :
  NoDup (snake g) -> tick fuel rand g = Some (g', o) -> NoDup (snake g').
Proof.
  intros IH H.
  destruct (tick_cases _ _ _ _ _ H) as [head [rest [Hs C]]]; cbv zeta in C.
  destruct C as [[Hc [Ho [Hsn [Hf [Hsc Hsp]]]]]|[[Hc [Hnh [Ho [Hsn [Hf [Hsc Hsp]]]]]]|[Hc [Hnh [Ho [Hsn [Hf [Hsc Hsp]]]]]]]].
  - rewrite Hsn; exact IH.
  - apply orb_false_iff in Hc; destruct Hc as [_ Hn]; apply some_segment_false in Hn.
    rewrite Hsn, Hs; rewrite Hs in Hn, IH; constructor; assumption.
  - apply orb_false_iff in Hc; destruct Hc as [_ Hn]; apply some_segment_false in Hn.
    rewrite Hsn, Hs; rewrite Hs in Hn, IH; apply NoDup_removelast; constructor; assumption.
Qed.

Lemma reachable_NoDup g : reachable g -> NoDup (snake g).
Proof.
  induction 1 as [fuel rand f st Hf | g g' fuel rand _ IH H | g g' fuel rand _ IH H
                 | g d _ IH | g d _ IH | g g' o fuel rand _ IH _ H].
  - exact INITIAL_SNAKE_NoDup.
  - destruct (togglePause_cases fuel rand g g' (or_introl H)) as [[-> _]|[-> _]];
      [exact IH | exact INITIAL_SNAKE_NoDup].
  - destruct (togglePause_cases fuel rand g g' (or_intror H)) as [[-> _]|[-> _]];
      [exact IH | exact INITIAL_SNAKE_NoDup].
  - destruct (turn_fields d g _ (or_introl eq_refl)) as [-> _]; exact IH.
  - destruct (turn_fields d g _ (or_intror eq_refl)) as [-> _]; exact IH.
  - exact (tick_NoDup _ _ _ _ _ IH H).
Qed.

(** * Claims *)

(** C1 (turn arbitration).  The arbiter compares a request with
    [directionRef.current], and an accepted turn calls [setDirection], whose
    effect moves [directionRef.current] to the accepted turn before the next
    tick.  After the session "start, one tick to the right" the committed
    heading is RIGHT and a lone LEFT request is refused; but after UP has been
    accepted, LEFT is accepted too (by the buttons and by the keyboard), and
    the next tick reverses the snake into its own neck and ends the game. *)
Theorem turn_reversal_within_tick :
  let g1 := session_state started_and_moved in
  reachable g1 /\ queuedRef g1 = RIGHT /\ queuedDirection g1 = RIGHT
  /\ queuedDirection (changeDirection LEFT g1) = RIGHT
  /\ queuedDirection (changeDirection LEFT (changeDirection UP g1)) = LEFT
  /\ queuedDirection (handleKeyTurn LEFT (handleKeyTurn UP g1)) = LEFT
  /\ exists g2, tick 1 (always start_food)
                  (changeDirection LEFT (changeDirection UP g1)) = Some (g2, Collided)
               /\ gameState g2 = over.
Proof.
  cbv zeta; split.
  - apply (run_reachable started_and_moved g_boot); [exact g_boot_reachable|].
    vm_compute; reflexivity.
  - split; [vm_compute; reflexivity|]. split; [vm_compute; reflexivity|].
    split; [vm_compute; reflexivity|]. split; [vm_compute; reflexivity|].
    split; [vm_compute; reflexivity|].
    eexists; split; [vm_compute; reflexivity | reflexivity].
Qed.

(** C2 (counterexample).  With every cell of the board forbidden and a draw
    sequence that scans the board, no number of passes of the do-while loop
    of [randomFoodPosition] ever returns: there is no BoardFull result. *)
Lemma randomFoodPosition_full_board_loops :
  ~ exists fuel c, randomFoodPosition fuel scan_board full_board = Some c.
Proof.
  intros [fuel [c H]].
  unfold randomFoodPosition in H; rewrite (food_loop_all_taken fuel full_board scan_board 0) in H; [discriminate|].
  intros j; unfold scan_board; apply nth_In.
  change (length full_board) with 400%nat; apply Nat.mod_upper_bound; discriminate.
Qed.

(** C2 (amended).  [randomFoodPosition] returns only a drawn in-board cell
    outside [forbidden]; it returns as soon as some draw is free; when
    [forbidden] covers the whole 20x20 board it never returns (no BoardFull
    signal exists). *)
Theorem randomFoodPosition_spec fuel rand forbidden :
  (forall i, in_board (rand i)) ->
  (forall c, randomFoodPosition fuel rand forbidden = Some c ->
             in_board c /\ ~ In c forbidden)
  /\ (forall k, (k < fuel)%nat -> ~ In (rand k) forbidden ->
                exists c, randomFoodPosition fuel rand forbidden = Some c)
  /\ ((forall c, in_board c -> In c forbidden) ->
      randomFoodPosition fuel rand forbidden = None).
Proof.
  intros Hb; split; [|split].
  - intros c H; destruct (food_loop_sound _ _ _ _ _ H) as [Hn [j [_ ->]]].
    split; [apply Hb | exact Hn].
  - intros k Hk Hf; apply (food_loop_first_free fuel forbidden rand 0 k Hk).
    exact Hf.
  - intros Hfull; apply food_loop_all_taken; intros j; apply Hfull, Hb.
Qed.

Lemma randomFoodPosition_spec_witness :
  (forall i, in_board (always (mkCoord 3 4) i))
  /\ randomFoodPosition 1 (always (mkCoord 3 4)) INITIAL_SNAKE = Some (mkCoord 3 4)
  /\ ~ In (mkCoord 3 4) INITIAL_SNAKE.
Proof.
  assert (Hb : forall i, in_board (always (mkCoord 3 4) i))
    by (intros i; unfold in_board, always, BOARD_SIZE; simpl; lia).
  split; [exact Hb|]. split; [reflexivity|].
  apply (proj1 (randomFoodPosition_spec 1 (always (mkCoord 3 4)) INITIAL_SNAKE Hb)
           (mkCoord 3 4) eq_refl).
Defined.

(** C3 (counterexample).  In the reachable paused state reached by "start,
    eat once, pause", the start/pause button and the Space key keep the
    score of 10 and the four-segment snake: no reset happens. *)
Lemma start_while_paused_keeps_game :
  reachable (session_state paused_after_meal)
  /\ gameState (session_state paused_after_meal) = paused
  /\ (forall fuel rand g',
        togglePause fuel rand (session_state paused_after_meal) = Some g'
        \/ handleSpace fuel rand (session_state paused_after_meal) = Some g' ->
        score g' = 10 /\ snake g' <> INITIAL_SNAKE).
Proof.
  split; [|split].
  - apply (run_reachable paused_after_meal g_boot); [exact g_boot_reachable|].
    vm_compute; reflexivity.
  - vm_compute; reflexivity.
  - intros fuel rand g' [H|H]; vm_compute in H; inversion H; subst;
      (split; [reflexivity | vm_compute; discriminate]).
Qed.

(** C3 (amended).  Starting while paused resumes: [togglePause] and the
    Space key return to [running] with snake, food, directions, score, high
    score and speed level unchanged, and restart the interval. *)
Theorem start_while_paused_resumes fuel rand g :
  gameState g = paused ->
  let resumed :=
    mkGame (snake g) (food g) (direction g) (queuedDirection g) (directionRef g)
      (queuedRef g) running (score g) (highScore g) (speedLevel g) true in
  togglePause fuel rand g = Some resumed /\ handleSpace fuel rand g = Some resumed.
Proof.
  destruct g as [sn fd dr qd dref qref gs sc hs sp lp]; simpl; intros ->.
  unfold togglePause, handleSpace, runEffects, setGameState;
    cbn -[coord_eqb tickRate Direction_eqb].
  rewrite Z.eqb_refl, !Direction_eqb_refl.
  split; reflexivity.
Qed.

Lemma start_while_paused_resumes_witness :
  gameState (session_state paused_after_meal) = paused
  /\ togglePause 1 (always start_food) (session_state paused_after_meal)
     = Some (mkGame [mkCoord 10 10; mkCoord 9 10; mkCoord 8 10; mkCoord 7 10]
               start_food RIGHT RIGHT RIGHT RIGHT running 10 10 1 true).
Proof.
  assert (Hp : gameState (session_state paused_after_meal) = paused)
    by (vm_compute; reflexivity).
  split; [exact Hp|].
  exact (proj1 (start_while_paused_resumes 1 (always start_food) _ Hp)).
Defined.

(** C4.  A next head outside the board or on any segment of the pre-move
    snake ends the tick as [Collided], whatever the food is: the snake,
    food and score are kept, the interval is cleared, the state is [over]
    and the high score is compared with the score. *)
Theorem tick_collision fuel rand g head rest nextHead :
  snake g = head :: rest ->
  getNextHead head (queuedRef g) = nextHead ->
  x nextHead < 0 \/ y nextHead < 0 \/ x nextHead >= BOARD_SIZE
  \/ y nextHead >= BOARD_SIZE \/ In nextHead (snake g) ->
  exists g', tick fuel rand g = Some (g', Collided)
    /\ snake g' = snake g /\ food g' = food g /\ score g' = score g
    /\ loop g' = false /\ gameState g' = over
    /\ highScore g' = updateHighScore (score g) (highScore g).
Proof.
  intros Hs Hn Hc.
  assert (C : (outOfBounds nextHead || some_segment nextHead (snake g)) = true).
  { unfold outOfBounds; rewrite !orb_true_iff, some_segment_In.
    rewrite !Z.ltb_lt, !Z.geb_le.
    destruct Hc as [H|[H|[H|[H|H]]]]; [do 4 left | do 3 left; right
      | do 2 left; right | left; right | right]; (lia || exact H). }
  unfold tick; rewrite Hs in *; rewrite Hn, C.
  eexists; split; [reflexivity|].
  unfold runEffects; simpl.
  repeat split; try reflexivity.
  - destruct (_ || _ || _); reflexivity.
  - rewrite Z.eqb_refl; reflexivity.
Qed.

Lemma tick_collision_witness :
  exists g', tick 1 (always start_food) wall_game = Some (g', Collided)
    /\ snake g' = snake wall_game /\ gameState g' = over.
Proof.
  destruct (tick_collision 1 (always start_food) wall_game (mkCoord 0 5)
              [mkCoord 1 5; mkCoord 2 5] (mkCoord (-1) 5) eq_refl eq_refl)
    as [g' [T [S [_ [_ [_ [G _]]]]]]].
  - left; simpl; lia.
  - exists g'; split; [exact T | split; [exact S | exact G]].
Defined.

(** C5.  A next head on the cell of the snake's own tail is a collision:
    the check runs on the whole pre-move body. *)
Theorem tick_onto_tail_collides fuel rand g head rest nextHead :
  snake g = head :: rest ->
  getNextHead head (queuedRef g) = nextHead ->
  nextHead = last (snake g) head ->
  exists g', tick fuel rand g = Some (g', Collided)
    /\ snake g' = snake g /\ gameState g' = over.
Proof.
  intros Hs Hn Ht.
  assert (Hin : In nextHead (snake g))
    by (rewrite Ht; apply last_In; rewrite Hs; discriminate).
  unfold tick; rewrite Hs in *; rewrite Hn.
  apply some_segment_In in Hin; rewrite Hin, orb_true_r.
  eexists; split; [reflexivity | split; reflexivity].
Qed.

Lemma tick_onto_tail_collides_witness :
  exists g', tick 1 (always start_food) square_game = Some (g', Collided)
    /\ snake g' = snake square_game /\ gameState g' = over.
Proof.
  exact (tick_onto_tail_collides 1 (always start_food) square_game (mkCoord 1 1)
           [mkCoord 2 1; mkCoord 2 2; mkCoord 1 2] (mkCoord 1 2)
           eq_refl eq_refl eq_refl).
Defined.

(** C6.  Without a collision, a next head on the food grows the snake by
    its new head (tail kept), adds 10 to the score and raises the speed
    level by one up to the cap of 12; any other next head keeps the length. *)
Theorem tick_eat_and_move fuel rand g head rest nextHead :
  snake g = head :: rest ->
  getNextHead head (queuedRef g) = nextHead ->
  0 <= x nextHead < BOARD_SIZE -> 0 <= y nextHead < BOARD_SIZE ->
  ~ In nextHead (snake g) ->
  speedLevel g <= 12 ->
  (forall newFood, nextHead = food g ->
     randomFoodPosition fuel rand (nextHead :: snake g) = Some newFood ->
     exists g', tick fuel rand g = Some (g', Ate)
       /\ snake g' = nextHead :: snake g
       /\ length (snake g') = S (length (snake g))
       /\ score g' = score g + 10
       /\ speedLevel g' = (if speedLevel g =? 12 then 12 else speedLevel g + 1))
  /\ (nextHead <> food g ->
      exists g', tick fuel rand g = Some (g', Continued)
        /\ length (snake g') = length (snake g)).
Proof.
  intros Hs Hn Hx Hy Hin Hsp.
  assert (C : (outOfBounds nextHead || some_segment nextHead (snake g)) = false).
  { apply some_segment_false in Hin; rewrite Hin, orb_false_r.
    unfold outOfBounds; rewrite !orb_false_iff, !Z.ltb_ge, !Z.geb_leb, !Z.leb_gt.
    lia. }
  split.
  - intros f Hf Hr.
    unfold tick; rewrite Hs in *; rewrite Hn, C, Hf, coord_eqb_refl.
    rewrite <- Hf, Hr.
    eexists; split; [reflexivity|]; simpl.
    repeat split; try reflexivity.
    destruct (Z.eqb_spec (speedLevel g) 12); lia.
  - intros Hf.
    unfold tick; rewrite Hs in *; rewrite Hn, C.
    replace (coord_eqb nextHead (food g)) with false
      by (symmetry; destruct (coord_eqb _ _) eqn:E; [apply coord_eqb_true in E; contradiction | reflexivity]).
    eexists; split; [reflexivity|].
    exact (removelast_cons_length nextHead (head :: rest)).
Qed.

Lemma tick_eat_and_move_witness :
  exists g', tick 1 (always start_food) meal_game = Some (g', Ate)
    /\ snake g' = [mkCoord 10 10; mkCoord 9 10; mkCoord 8 10; mkCoord 7 10]
    /\ score g' = 10.
Proof.
  assert (Hin : ~ In (mkCoord 10 10) (snake meal_game)).
  { intros H; apply some_segment_In in H; vm_compute in H; discriminate H. }
  destruct (tick_eat_and_move 1 (always start_food) meal_game (mkCoord 9 10)
              [mkCoord 8 10; mkCoord 7 10] (mkCoord 10 10) eq_refl eq_refl)
    as [Heat _].
  - unfold BOARD_SIZE; simpl; lia.
  - unfold BOARD_SIZE; simpl; lia.
  - exact Hin.
  - simpl; lia.
  - destruct (Heat start_food eq_refl eq_refl) as [g' [T [S [_ [Sc _]]]]].
    exists g'; split; [exact T | split; [exact S | exact Sc]].
Defined.

Lemma tick_food_disjoint fuel rand g g' o :
  ~ In (food g) (snake g) -> tick fuel rand g = Some (g', o) ->
  ~ In (food g') (snake g').
Proof.
  intros IH H.
  destruct (tick_cases _ _ _ _ _ H) as [head [rest [Hs C]]]; cbv zeta in C.
  destruct C as [[Hc [Ho [Hsn [Hf [Hsc Hsp]]]]]|[[Hc [Hnh [Ho [Hsn [Hf [Hsc Hsp]]]]]]|[Hc [Hnh [Ho [Hsn [Hf [Hsc Hsp]]]]]]]].
  - rewrite Hsn, Hf; exact IH.
  - rewrite Hsn; exact (proj1 (food_loop_sound _ _ _ _ _ Hf)).
  - rewrite Hsn, Hf; intros Hin; apply in_removelast in Hin.
    destruct Hin as [Heq|Hin]; [exact (Hnh Heq) | exact (IH Hin)].
Qed.

(** C7.  In every reachable state the food lies on no snake segment, and
    every tick (eating or not) keeps it so. *)
Theorem food_disjoint_from_snake :
  (forall g, reachable g -> ~ In (food g) (snake g))
  /\ (forall fuel rand g g' o,
        ~ In (food g) (snake g) -> tick fuel rand g = Some (g', o) ->
        ~ In (food g') (snake g')).
Proof.
  split; [exact reachable_food_not_in_snake | exact tick_food_disjoint].
Qed.

Lemma food_disjoint_from_snake_witness :
  reachable (session_state twelve_meals)
  /\ ~ In (food (session_state twelve_meals)) (snake (session_state twelve_meals)).
Proof.
  assert (R : reachable (session_state twelve_meals)).
  { apply (run_reachable twelve_meals g_boot); [exact g_boot_reachable|].
    vm_compute; reflexivity. }
  split; [exact R | exact (proj1 food_disjoint_from_snake _ R)].
Defined.

(** C8.  In every reachable state the snake has no repeated cell (its
    length is the number of its distinct cells), and every tick keeps it so. *)
Theorem snake_cells_distinct :
  (forall g, reachable g ->
     length (nodup Coordinate_eq_dec (snake g)) = length (snake g))
  /\ (forall fuel rand g g' o,
        NoDup (snake g) -> tick fuel rand g = Some (g', o) -> NoDup (snake g')).
Proof.
  split.
  - intros g R; rewrite nodup_fixed_point; [reflexivity|].
    exact (reachable_NoDup g R).
  - exact tick_NoDup.
Qed.

Lemma snake_cells_distinct_witness :
  reachable (session_state twelve_meals)
  /\ length (nodup Coordinate_eq_dec (snake (session_state twelve_meals))) = 15%nat.
Proof.
  assert (R : reachable (session_state twelve_meals)).
  { apply (run_reachable twelve_meals g_boot); [exact g_boot_reachable|].
    vm_compute; reflexivity. }
  split; [exact R|].
  rewrite (proj1 snake_cells_distinct _ R); vm_compute; reflexivity.
Defined.

(** C9.  The interval is [max(60, 160 - L * 6)] for every level [L], never
    below 60; in every reachable state the level is in [0, 12] and the
    interval at least 88, and 88 is attained by a reachable state (level 12). *)
Theorem tickRate_bounds :
  (forall L, tickRate L = Z.max 60 (160 - L * 6))
  /\ (forall L, 60 <= tickRate L)
  /\ (forall g, reachable g -> 0 <= speedLevel g <= 12 /\ 88 <= tickRate (speedLevel g))
  /\ (exists g, reachable g /\ speedLevel g = 12 /\ tickRate (speedLevel g) = 88).
Proof.
  split; [reflexivity|]. split; [intros L; unfold tickRate; lia|]. split.
  - intros g R; pose proof (reachable_speedLevel g R) as B; split; [exact B|].
    unfold tickRate, TICK_BASE, SPEED_STEP; lia.
  - exists (session_state twelve_meals); split; [|split; vm_compute; reflexivity].
    apply (run_reachable twelve_meals g_boot); [exact g_boot_reachable|].
    vm_compute; reflexivity.
Qed.

Lemma tickRate_bounds_witness :
  reachable g_boot /\ 88 <= tickRate (speedLevel g_boot).
Proof.
  split; [exact g_boot_reachable|].
  exact (proj2 (proj1 (proj2 (proj2 tickRate_bounds)) g_boot g_boot_reachable)).
Defined.

(** C10.  Turn requests do not look at [gameState]: the key handler and the
    direction buttons make the same decision, that decision commutes with
    any change of [gameState], and an accepted request updates the queued
    direction and the [direction] state whatever [gameState] is, and in a
    reachable state also [directionRef]. *)
Theorem turn_requests_ungated (d : Direction) (s : GameState) (g : Game) :
  handleKeyTurn d g = changeDirection d g
  /\ handleKeyTurn d (setGameState s g) = setGameState s (handleKeyTurn d g)
  /\ changeDirection d (setGameState s g) = setGameState s (changeDirection d g)
  /\ (isOppositeDirection (directionRef g) d = false -> queuedDirection g <> d ->
      queuedDirection (changeDirection d g) = d /\ direction (changeDirection d g) = d
      /\ queuedDirection (handleKeyTurn d g) = d /\ direction (handleKeyTurn d g) = d)
  /\ (reachable g -> isOppositeDirection (directionRef g) d = false ->
      queuedDirection g <> d ->
      directionRef (changeDirection d g) = d /\ directionRef (handleKeyTurn d g) = d).
Proof.
  assert (Ref : reachable g -> isOppositeDirection (directionRef g) d = false ->
                queuedDirection g <> d ->
                directionRef (changeDirection d g) = d
                /\ directionRef (handleKeyTurn d g) = d).
  { intros R Ho Hq; pose proof (reachable_direction_synced g R) as E.
    unfold changeDirection, handleKeyTurn; rewrite Ho; simpl.
    replace (Direction_eqb (queuedDirection g) d) with false
      by (symmetry; destruct (Direction_eqb _ _) eqn:Q;
          [apply Direction_eqb_true in Q; contradiction | reflexivity]).
    unfold runEffects, setTurn; simpl; rewrite E.
    replace (Direction_eqb (queuedDirection g) d) with false
      by (symmetry; destruct (Direction_eqb _ _) eqn:Q;
          [apply Direction_eqb_true in Q; contradiction | reflexivity]).
    split; reflexivity. }
  enough (Main : handleKeyTurn d g = changeDirection d g
    /\ handleKeyTurn d (setGameState s g) = setGameState s (handleKeyTurn d g)
    /\ changeDirection d (setGameState s g) = setGameState s (changeDirection d g)
    /\ (isOppositeDirection (directionRef g) d = false -> queuedDirection g <> d ->
        queuedDirection (changeDirection d g) = d /\ direction (changeDirection d g) = d
        /\ queuedDirection (handleKeyTurn d g) = d /\ direction (handleKeyTurn d g) = d))
    by (destruct Main as [A [B [C D]]]; split; [exact A|]; split; [exact B|];
        split; [exact C|]; split; [exact D | exact Ref]).
  clear Ref.
  destruct g as [sn fd dr qd dref qref gs sc hs sp lp].
  unfold handleKeyTurn, changeDirection, runEffects, setGameState, setTurn;
    cbn -[coord_eqb tickRate].
  rewrite !coord_eqb_refl, !Z.eqb_refl, !GameState_eqb_refl.
  destruct d, s, qd, dref, dr; cbn; repeat (split || intro); congruence.
Qed.

Lemma turn_requests_ungated_witness :
  reachable (session_state paused_after_meal)
  /\ gameState (session_state paused_after_meal) = paused
  /\ queuedDirection (changeDirection UP (session_state paused_after_meal)) = UP
  /\ directionRef (changeDirection UP (session_state paused_after_meal)) = UP.
Proof.
  assert (R : reachable (session_state paused_after_meal)).
  { apply (run_reachable paused_after_meal g_boot); [exact g_boot_reachable|].
    vm_compute; reflexivity. }
  assert (Ho : isOppositeDirection (directionRef (session_state paused_after_meal)) UP
               = false) by (vm_compute; reflexivity).
  assert (Hq : queuedDirection (session_state paused_after_meal) <> UP)
    by (vm_compute; discriminate).
  destruct (turn_requests_ungated UP paused (session_state paused_after_meal))
    as [_ [_ [_ [Acc Ref]]]].
  split; [exact R|]. split; [vm_compute; reflexivity|].
  split; [exact (proj1 (Acc Ho Hq)) | exact (proj1 (Ref R Ho Hq))].
Defined.

(** * Further properties of the component *)

(** Reachable states are those produced from an initial render by [step]. *)
Lemma reachable_ind_step (P : Game -> Prop) :
  (forall fuel rand food0 stored,
     randomFoodPosition fuel rand INITIAL_SNAKE = Some food0 ->
     P (initialGame food0 stored)) ->
  (forall a g g', reachable g -> P g -> step a g = Some g' -> P g') ->
  forall g, reachable g -> P g.
Proof.
  intros Hinit Hstep g R; induction R as [fuel rand f st Hf | g g' fuel rand R IH H
    | g g' fuel rand R IH H | g d R IH | g d R IH | g g' o fuel rand R IH L H].
  - eapply Hinit; eauto.
  - apply (Hstep (AToggle fuel rand) g g' R IH H).
  - apply (Hstep (ASpace fuel rand) g g' R IH H).
  - apply (Hstep (AKey d) g _ R IH); reflexivity.
  - apply (Hstep (AButton d) g _ R IH); reflexivity.
  - apply (Hstep (ATick fuel rand) g g' R IH); simpl; rewrite L, H; reflexivity.
Qed.

(** Case analysis of one [step]: pause/resume/reset, a turn, or a tick in
    one of its three branches. *)
Ltac split_toggle H :=
  let Eg := fresh "Eg" in let F := fresh "F" in
  unfold togglePause, handleSpace in H; destruct (gameState _) eqn:Eg;
  try (destruct (randomFoodPosition _ _ _) eqn:F; [|discriminate]);
  inversion H; subst; clear H.

Ltac split_tick H :=
  let Es := fresh "Es" in let C := fresh "C" in let Ea := fresh "Ea" in
  let F := fresh "F" in let hd := fresh "hd" in let tl := fresh "tl" in
  unfold tick in H; destruct (snake _) as [|hd tl] eqn:Es; [discriminate|];
  destruct (outOfBounds _ || some_segment _ _) eqn:C;
  [ inversion H; subst; clear H
  | destruct (coord_eqb _ _) eqn:Ea;
    [ destruct (randomFoodPosition _ _ _) eqn:F; [inversion H; subst; clear H | discriminate]
    | inversion H; subst; clear H ] ].

Ltac split_step H :=
  let L := fresh "L" in let T := fresh "T" in
  let g1 := fresh "g1" in let o := fresh "o" in
  match type of H with
  | step ?a _ = Some _ =>
      destruct a; simpl in H;
      [ split_toggle H | split_toggle H
      | inversion H; subst; clear H | inversion H; subst; clear H
      | destruct (loop _) eqn:L; [|discriminate];
        destruct (tick _ _ _) as [[g1 o]|] eqn:T; [|discriminate];
        inversion H; subst; clear H; split_tick T ]
  end.

Lemma runEffects_highScore prev next :
  highScore next <= highScore (runEffects prev next).
Proof.
  unfold runEffects, updateHighScore; simpl.
  destruct (score prev =? score next); [lia|].
  destruct (Z.gtb_spec (score next) (highScore next)); lia.
Qed.

Lemma updateHighScore_ge s hs : hs <= updateHighScore s hs /\ s <= updateHighScore s hs.
Proof. unfold updateHighScore; destruct (Z.gtb_spec s hs); lia. Qed.

(** The high score never decreases: every handler and every tick leaves it
    at least where it was. *)
Theorem highScore_monotone a g g' :
  step a g = Some g' -> highScore g <= highScore g'.
Proof.
  intros H; split_step H;
    try (unfold handleKeyTurn, changeDirection;
         repeat match goal with |- context [if ?b then _ else _] => destruct b end);
    (eapply Z.le_trans; [|apply runEffects_highScore]); simpl;
    try lia; apply updateHighScore_ge.
Qed.

Lemma highScore_monotone_witness :
  step (ATick 1 (always start_food)) meal_game
    = Some (mkGame [mkCoord 10 10; mkCoord 9 10; mkCoord 8 10; mkCoord 7 10]
              start_food RIGHT RIGHT RIGHT RIGHT running 10 10 1 true)
  /\ highScore meal_game <= 10.
Proof.
  assert (E : step (ATick 1 (always start_food)) meal_game
    = Some (mkGame [mkCoord 10 10; mkCoord 9 10; mkCoord 8 10; mkCoord 7 10]
              start_food RIGHT RIGHT RIGHT RIGHT running 10 10 1 true))
    by (vm_compute; reflexivity).
  split; [exact E | exact (highScore_monotone _ _ _ E)].
Defined.

(** ** Scheduler and direction cells *)

Lemma control_inv_step a g g' : control_inv g -> step a g = Some g' -> control_inv g'.
Proof.
  intros IH H; split_step H;
  destruct g as [sn fd dr qd dref qref gs sc hs sp lp];
  unfold control_inv, runEffects, setGameState, resetGame, setTurn,
    handleKeyTurn, changeDirection in *; simpl in *;
  destruct IH as [Hl [H1 [H2 H3]]]; subst;
  try (rewrite Es; simpl);
  try destruct gs; try discriminate; destruct dr; try destruct d; simpl in *;
  try discriminate;
  repeat match goal with |- context [if ?b then _ else _] => destruct b end;
  repeat split; reflexivity.
Qed.

Lemma reachable_control_inv g : reachable g -> control_inv g.
Proof.
  apply reachable_ind_step.
  - intros; repeat split; reflexivity.
  - intros a g0 g1 _ IH H; exact (control_inv_step a g0 g1 IH H).
Qed.

(** In every reachable state an interval is live exactly when the game is
    running: no tick fires while idle, paused or over. *)
Theorem interval_live_iff_running g :
  reachable g -> (loop g = true <-> gameState g = running).
Proof.
  intros R; destruct (reachable_control_inv g R) as [Hl _]; rewrite Hl.
  destruct (gameState g); simpl; split; congruence.
Qed.

Lemma interval_live_iff_running_witness :
  reachable (session_state paused_after_meal)
  /\ loop (session_state paused_after_meal) = false.
Proof.
  assert (R : reachable (session_state paused_after_meal)).
  { apply (run_reachable paused_after_meal g_boot); [exact g_boot_reachable|].
    vm_compute; reflexivity. }
  split; [exact R|].
  destruct (loop (session_state paused_after_meal)) eqn:L; [|reflexivity].
  apply (interval_live_iff_running _ R) in L; vm_compute in L; discriminate L.
Defined.

(** In every reachable state the four copies of the heading agree: the
    [direction] and [queuedDirection] states and the two refs. *)
Theorem direction_cells_agree g :
  reachable g ->
  directionRef g = direction g /\ queuedRef g = direction g
  /\ queuedDirection g = direction g.
Proof. intros R; exact (proj2 (reachable_control_inv g R)). Qed.

Lemma direction_cells_agree_witness :
  reachable (session_state twelve_meals)
  /\ directionRef (session_state twelve_meals) = DOWN.
Proof.
  assert (R : reachable (session_state twelve_meals)).
  { apply (run_reachable twelve_meals g_boot); [exact g_boot_reachable|].
    vm_compute; reflexivity. }
  split; [exact R|].
  rewrite (proj1 (direction_cells_agree _ R)); vm_compute; reflexivity.
Defined.

(** ** Score, length and speed level *)

Ltac game_projs :=
  cbn [snake food direction queuedDirection directionRef queuedRef gameState
       score highScore speedLevel loop length] in *.

Ltac bool_cases :=
  repeat match goal with |- context [if ?b then _ else _] =>
    let E := fresh "E" in destruct b eqn:E end;
  repeat match goal with
         | H : (_ =? _) = true |- _ => apply Z.eqb_eq in H
         | H : (_ =? _) = false |- _ => apply Z.eqb_neq in H
         end.

Lemma score_inv_step a g g' : score_inv g -> step a g = Some g' -> score_inv g'.
Proof.
  intros IH H; split_step H;
  destruct g as [sn fd dr qd dref qref gs sc hs sp lp];
  unfold score_inv, handleKeyTurn, changeDirection in *;
  unfold runEffects, setGameState, resetGame, setTurn in *; game_projs;
  destruct IH as [Hb [Hs Hp]];
  pose proof (updateHighScore_ge 0 hs); pose proof (updateHighScore_ge sc hs);
  pose proof (updateHighScore_ge (sc + 10) hs);
  try subst sn; try rewrite removelast_cons_length;
  bool_cases; game_projs; try rewrite removelast_cons_length; game_projs;
  repeat split; lia.
Qed.

Lemma reachable_score_inv g : reachable g -> score_inv g.
Proof.
  apply reachable_ind_step.
  - intros fuel rand f st _; unfold score_inv, initialGame; cbn.
    pose proof (updateHighScore_ge 0 st); lia.
  - intros a g0 g1 _ IH H; exact (score_inv_step a g0 g1 IH H).
Qed.



(** In every reachable state the snake has at least its three initial
    segments, the score is 10 per extra segment, and the speed level is the
    number of extra segments capped at 12. *)
Theorem score_speed_track_length g :
  reachable g ->
  (3 <= length (snake g))%nat
  /\ score g = 10 * (Z.of_nat (length (snake g)) - 3)
  /\ speedLevel g = Z.min (Z.of_nat (length (snake g)) - 3) 12.
Proof.
  intros R; destruct (reachable_score_inv g R) as [Hb [Hs Hp]].
  split; [lia | split; assumption].
Qed.

Lemma score_speed_track_length_witness :
  reachable (session_state twelve_meals)
  /\ score (session_state twelve_meals) = 10 * (15 - 3).
Proof.
  assert (R : reachable (session_state twelve_meals)).
  { apply (run_reachable twelve_meals g_boot); [exact g_boot_reachable|].
    vm_compute; reflexivity. }
  split; [exact R|].
  rewrite (proj1 (proj2 (score_speed_track_length _ R))); vm_compute; reflexivity.
Defined.

(** ** Geometry of the snake *)

Lemma contiguous_removelast (a : Coordinate) (l : list Coordinate) :
  contiguous (a :: l) = true -> contiguous (removelast (a :: l)) = true.
Proof.
  revert a; induction l as [|b t IH]; intros a H; [reflexivity|].
  change (removelast (a :: b :: t)) with (a :: removelast (b :: t)).
  simpl in H; apply andb_true_iff in H; destruct H as [Hab Ht].
  specialize (IH b Ht).
  destruct t as [|c t']; [reflexivity|].
  change (removelast (b :: c :: t')) with (b :: removelast (c :: t')) in *.
  simpl; rewrite Hab; exact IH.
Qed.

Lemma getNextHead_adjacent (h : Coordinate) (d : Direction) :
  adjacent (getNextHead h d) h = true.
Proof.
  unfold adjacent; apply Z.eqb_eq; destruct d; simpl; lia.
Qed.

Lemma not_outOfBounds (c : Coordinate) : outOfBounds c = false -> in_board c.
Proof.
  unfold outOfBounds, in_board; intros H.
  repeat rewrite orb_false_iff in H.
  destruct H as [[[H1 H2] H3] H4].
  rewrite Z.ltb_ge in H1, H2; rewrite Z.geb_leb, Z.leb_gt in H3, H4; lia.
Qed.

Lemma INITIAL_SNAKE_geom : Forall in_board INITIAL_SNAKE /\ contiguous INITIAL_SNAKE = true.
Proof.
  split; [|reflexivity].
  repeat constructor; unfold BOARD_SIZE; simpl; lia.
Qed.

Lemma geom_inv_step a g g' : geom_inv g -> step a g = Some g' -> geom_inv g'.
Proof.
  intros [Hb Hc] H; unfold geom_inv; destruct a; simpl in H.
  - destruct (togglePause_cases fuel rand g g' (or_introl H)) as [[-> _]|[-> _]];
      [split; assumption | exact INITIAL_SNAKE_geom].
  - destruct (togglePause_cases fuel rand g g' (or_intror H)) as [[-> _]|[-> _]];
      [split; assumption | exact INITIAL_SNAKE_geom].
  - inversion H; subst.
    destruct (turn_fields d g _ (or_introl eq_refl)) as [-> _]; split; assumption.
  - inversion H; subst.
    destruct (turn_fields d g _ (or_intror eq_refl)) as [-> _]; split; assumption.
  - destruct (loop g); [|discriminate].
    destruct (tick fuel rand g) as [[g1 o]|] eqn:T; [|discriminate].
    inversion H; subst; clear H.
    destruct (tick_cases _ _ _ _ _ T) as [head [rest [Hs C]]]; cbv zeta in C.
    destruct C as [[Cc [Ho [Hsn _]]]|[[Cc [_ [_ [Hsn _]]]]|[Cc [_ [_ [Hsn _]]]]]];
      rewrite Hsn; [split; assumption| |];
      apply orb_false_iff in Cc; destruct Cc as [Cb _];
      apply not_outOfBounds in Cb; rewrite Hs in *.
    + split; [constructor; assumption|].
      simpl; rewrite getNextHead_adjacent; exact Hc.
    + split.
      * apply Forall_forall; intros c Hin; apply in_removelast in Hin.
        destruct Hin as [<-|Hin]; [exact Cb|].
        exact (proj1 (Forall_forall _ _) Hb c Hin).
      * apply contiguous_removelast; simpl; rewrite getNextHead_adjacent; exact Hc.
Qed.

Lemma reachable_geom_inv g : reachable g -> geom_inv g.
Proof.
  apply reachable_ind_step.
  - intros; exact INITIAL_SNAKE_geom.
  - intros a g0 g1 _ IH H; exact (geom_inv_step a g0 g1 IH H).
Qed.

(** In every reachable state every segment of the snake lies on the board. *)
Theorem snake_in_board g : reachable g -> Forall in_board (snake g).
Proof. intros R; exact (proj1 (reachable_geom_inv g R)). Qed.

Lemma snake_in_board_witness :
  reachable (session_state twelve_meals)
  /\ In (mkCoord 19 12) (snake (session_state twelve_meals))
  /\ in_board (mkCoord 19 12).
Proof.
  assert (R : reachable (session_state twelve_meals)).
  { apply (run_reachable twelve_meals g_boot); [exact g_boot_reachable|].
    vm_compute; reflexivity. }
  assert (Hin : In (mkCoord 19 12) (snake (session_state twelve_meals)))
    by (vm_compute; left; reflexivity).
  split; [exact R|]. split; [exact Hin|].
  exact (proj1 (Forall_forall _ _) (snake_in_board _ R) _ Hin).
Defined.

(** In every reachable state consecutive segments of the snake are grid
    neighbours: the body is one connected chain. *)
Theorem snake_contiguous g : reachable g -> contiguous (snake g) = true.
Proof. intros R; exact (proj2 (reachable_geom_inv g R)). Qed.

Lemma snake_contiguous_witness :
  reachable (session_state twelve_meals)
  /\ contiguous (snake (session_state twelve_meals)) = true.
Proof.
  assert (R : reachable (session_state twelve_meals)).
  { apply (run_reachable twelve_meals g_boot); [exact g_boot_reachable|].
    vm_compute; reflexivity. }
  split; [exact R | exact (snake_contiguous _ R)].
Defined.

(** In a reachable running game, pausing stops the interval and changes
    nothing else, and resuming right after gives back exactly the same
    state. *)
Theorem pause_resume_roundtrip fuel rand fuel' rand' g g1 :
  reachable g -> gameState g = running ->
  togglePause fuel rand g = Some g1 ->
  gameState g1 = paused /\ loop g1 = false /\ togglePause fuel' rand' g1 = Some g.
Proof.
  intros R Hg H.
  destruct (reachable_control_inv g R) as [Hl _].
  destruct g as [sn fd dr qd dref qref gs sc hs sp lp]; cbn in Hg, Hl; subst gs lp.
  unfold togglePause in H; cbn in H; inversion H; subst g1; clear H.
  unfold runEffects, setGameState; cbn -[tickRate].
  rewrite !Direction_eqb_refl, !Z.eqb_refl.
  split; [reflexivity|]. split; [reflexivity|].
  unfold togglePause, runEffects, setGameState; cbn -[tickRate].
  rewrite !Direction_eqb_refl, !Z.eqb_refl; reflexivity.
Qed.

Lemma pause_resume_roundtrip_witness :
  let g := session_state started_and_moved in
  reachable g /\ togglePause 1 (always start_food) g
                 = Some (setGameState paused
                           (mkGame (snake g) (food g) RIGHT RIGHT RIGHT RIGHT running
                              0 0 0 false))
  /\ togglePause 1 (always start_food)
       (setGameState paused
          (mkGame (snake g) (food g) RIGHT RIGHT RIGHT RIGHT running 0 0 0 false))
     = Some g.
Proof.
  cbv zeta.
  assert (R : reachable (session_state started_and_moved)).
  { apply (run_reachable started_and_moved g_boot); [exact g_boot_reachable|].
    vm_compute; reflexivity. }
  assert (E : togglePause 1 (always start_food) (session_state started_and_moved)
     = Some (setGameState paused
               (mkGame (snake (session_state started_and_moved))
                  (food (session_state started_and_moved)) RIGHT RIGHT RIGHT RIGHT
                  running 0 0 0 false))) by (vm_compute; reflexivity).
  split; [exact R|]. split; [exact E|].
  exact (proj2 (proj2 (pause_resume_roundtrip 1 (always start_food) 1
           (always start_food) _ _ R ltac:(vm_compute; reflexivity) E))).
Defined.

(** The Space key and the start/pause button make the same transition in
    every state. *)
Theorem space_matches_button fuel rand g :
  handleSpace fuel rand g = togglePause fuel rand g.
Proof. unfold handleSpace, togglePause; destruct (gameState g); reflexivity. Qed.


